(** * Parallel trapezoidal rule (trap_merged.c)

    A shallow embedding of [src/trap_merged.c]: the integrand [f], the local
    integrator [Trap], the partitioning arithmetic of [main] and the
    sequential skeleton of the MPI run (argument handling at rank 0, abort,
    broadcast, per-rank work, reduction, report).

    Numbers.  C [int] values are modelled as [Z]; [/] and [%] on [int] are
    C's truncating [Z.quot] and [Z.rem].  C [float] values are modelled as
    exact rationals [Q] with [Qeq] as equality: every statement about a
    [float] below is a statement "in exact arithmetic".  The conversion of an
    [int] to [float] is [inject_Z].

    Headers.  The file includes stdio.h, math.h and mpi.h only, so [atof]
    and [atoi] are called without a declaration and are compiled as
    functions returning [int].  For [atoi] that is its type; for [atof] it
    is not, and what [main] stores in [a] and [b] is an [int] converted to
    [float]. *)

From Stdlib Require Import ZArith QArith Qfield List String Ascii Bool Lia.
From Stdlib Require Import Qpower.
Import ListNotations.

Local Open Scope Z_scope.
Local Open Scope Q_scope.

(** ** Sums over lists *)

Definition Qsum (l : list Q) : Q := fold_right Qplus 0 l.
Definition Zsum (l : list Z) : Z := fold_right Z.add 0%Z l.

(** The ranks [0 .. p-1] of a communicator of size [p], in rank order. *)
Definition ranks (p : Z) : list Z := map Z.of_nat (seq 0 (Z.to_nat p)).

(** The integers [lo, lo+1, ..., hi] (empty when [hi < lo]). *)
Definition Zrange (lo hi : Z) : list Z :=
  map (fun k => (lo + Z.of_nat k)%Z) (seq 0 (Z.to_nat (hi - lo + 1))).

(** ** The integrand: [float f(float x)] *)

Definition f (x : Q) : Q :=
  let return_val := x * x in
  return_val.

(** ** The local integrator: [float Trap(local_a, local_b, local_n, h)] *)

(** The loop [for (i = 1; i <= local_n-1; i++) { x = x + h; integral =
    integral + f(x); }].  The state is [(i, x, integral)]; [fuel] bounds the
    number of iterations and [Trap] supplies enough of it. *)
Fixpoint Trap_for (fuel : nat) (i local_n : Z) (x integral h : Q) : Q :=
  match fuel with
  | O => integral
  | S fuel' =>
      if (i <=? local_n - 1)%Z then
        let x := x + h in
        let integral := integral + f x in
        Trap_for fuel' (i + 1)%Z local_n x integral h
      else integral
  end.

Definition Trap (local_a local_b : Q) (local_n : Z) (h : Q) : Q :=
  let integral := (f local_a + f local_b) / 2 in
  let x := local_a in
  let integral := Trap_for (Z.to_nat local_n) 1%Z local_n x integral h in
  let integral := integral * h in
  integral.

(** The composite trapezoidal estimate as the specification words it:
    [h * ((f(local_a) + f(local_b))/2 + sum_{i=1}^{local_n-1} f(local_a + i*h))]. *)
Definition trapezoid_spec (local_a local_b : Q) (local_n : Z) (h : Q) : Q :=
  h * ((f local_a + f local_b) / 2
       + Qsum (map (fun i => f (local_a + inject_Z i * h))
                   (Zrange 1 (local_n - 1)))).

(** ** The partitioning arithmetic of [main] (lines 100-118) *)

Record partition := mkPartition {
  part_n : Z;      (* local_n *)
  part_a : Q;      (* local_a *)
  part_b : Q       (* local_b *)
}.

Definition step_h (a b : Q) (n : Z) : Q := (b - a) / inject_Z n.

Definition local_part (a b : Q) (n p my_rank : Z) : partition :=
  let h := step_h a b n in
  let local_n := Z.quot n p in
  let residual := Z.rem n p in
  let local_a := a + inject_Z (my_rank * local_n) * h in
  let '(local_n, local_a) :=
    if (my_rank <? residual)%Z
    then ((local_n + 1)%Z, local_a + inject_Z my_rank * h)
    else (local_n, local_a + inject_Z residual * h) in
  let local_b := local_a + inject_Z local_n * h in
  mkPartition local_n local_a local_b.

(** The final [local_n] of a rank; it depends on [n], [p] and the rank only. *)
Definition local_n (n p my_rank : Z) : Z := part_n (local_part 0 0 n p my_rank).

(** The value each rank hands to the reduction. *)
Definition local_integral (a b : Q) (n p my_rank : Z) : Q :=
  let pt := local_part a b n p my_rank in
  Trap (part_a pt) (part_b pt) (part_n pt) (step_h a b n).

(** [MPI_Reduce(..., MPI_SUM, 0, ...)]: the sum of every rank's value. *)
Definition reduce_total (a b : Q) (n p : Z) : Q :=
  Qsum (map (local_integral a b n p) (ranks p)).

(** ** The run of [main]

    [main] is executed by [p] processes.  Every process starts from the
    hardwired defaults; rank 0 alone reads the command line, checks [n] and
    may abort the whole communicator; the three [MPI_Bcast] calls then
    overwrite every rank's [a], [b], [n] with those of rank 0; every rank
    computes its partition and local integral; [MPI_Reduce] delivers the sum
    to rank 0, which reports. *)

Record params := mkParams {
  par_a : Q;       (* float a *)
  par_b : Q;       (* float b *)
  par_n : Z        (* int n *)
}.

(** [float a = 0.0; float b = 1.0; int n = 1024;] *)
Definition defaults : params := mkParams 0 1 1024.

(** [bool verbose = false;] *)
Definition verbose : bool := false.

(** What a [printf] of the program writes; the numeric arguments are kept
    instead of their [%d] / [%f] renderings. *)
Inductive message :=
| Text (s : string)
| ShowA (a : Q)                                   (* "a is %5.3f\n" *)
| ShowB (b : Q)                                   (* "b is %5.3f\n" *)
| ShowN (n : Z)                                   (* "n is %d\n" *)
| ProcessLine (my_rank local_n : Z) (local_a local_b : Q)
| EstimateHead (n : Z)
| EstimateLine (a b total : Q)
| TrueValueLine (v : Q).

(** The observable steps of a run, in program order (ranks in rank order
    within one program point). *)
Inductive event :=
| Printf (my_rank : Z) (m : message)
| MPI_Abort (errorcode : Z)
| MPI_Bcast_float (root : Z) (v : Q)
| MPI_Bcast_int (root : Z) (v : Z)
| MPI_Reduce_sum (root : Z) (total : Q).

Inductive outcome :=
| Undefined                        (* [argv[i]] read where there is no argument string *)
| Aborted (errorcode : Z) (trace : list event)
| Finalized (trace : list event).

(** The end of line ["\n"] of the format strings. *)
Definition newline : string := String "010"%char EmptyString.

Definition error_text : string :=
  ("Error: n <= 0 or n is not a number." ++ newline)%string.

(** [pow(x, 3)] of the C library, in exact arithmetic. *)
Definition pow (x : Q) (k : Z) : Q := Qpower x k.

(** The expression printed after "True Value:". *)
Definition true_value (a b : Q) : Q := (pow b 3 - pow a 3) / 3.

(** [argv[i]]: one of the [argc] argument strings, or nothing to read. *)
Definition argv_at (argv : list string) (i : nat) : option string :=
  nth_error argv i.

Definition argc_of (argv : list string) : Z := Z.of_nat (List.length argv).

(** The broadcast from rank 0: every rank's copy becomes the root's. *)
Definition bcast (world : list params) : list params :=
  match world with
  | [] => []
  | root :: _ => map (fun _ => root) world
  end.

(** Lines 100-124 at one rank, from that rank's own copy of [a], [b], [n]. *)
Definition rank_work (p : Z) (my_rank : Z) (st : params) : Q * event :=
  let a := par_a st in
  let b := par_b st in
  let n := par_n st in
  let pt := local_part a b n p my_rank in
  let integral := Trap (part_a pt) (part_b pt) (part_n pt) (step_h a b n) in
  (integral, Printf my_rank (ProcessLine my_rank (part_n pt) (part_a pt) (part_b pt))).

Section Main.

(** [atof] and [atoi] belong to the C library, not to this program, and
    neither is declared where [main] calls it.  [atoi s] is the [int] the
    library returns.  [atof s] is the [int] that the call [atof(argv[i])],
    compiled against the implicit declaration [int atof()], evaluates to;
    the C standard leaves that value open and the statements below hold for
    every choice of it. *)
Variable atof : string -> Z.
Variable atoi : string -> Z.

(** Lines 70-88 at rank 0: the values of [a], [b], [n] after the command
    line has been looked at, or [None] when one of the three reads of
    [argv] finds no string.  The assignments to the [float]s [a] and [b]
    convert the [int] value of the [atof] call. *)
Definition read_args (argv : list string) : option params :=
  if (argc_of argv >? 1)%Z then
    match argv_at argv 1, argv_at argv 2, argv_at argv 3 with
    | Some s1, Some s2, Some s3 =>
        Some (mkParams (inject_Z (atof s1)) (inject_Z (atof s2)) (atoi s3))
    | _, _, _ => None
    end
  else Some defaults.

Definition verbose_trace (argv : list string) (st : params) : list event :=
  (if verbose
   then [Printf 0 (Text ((if (argc_of argv >? 1)%Z
                          then "Command Line Arguments:"
                          else "Default Arguments:") ++ newline)%string)]
   else [])
  ++ (if verbose
      then [Printf 0 (ShowA (par_a st)); Printf 0 (ShowB (par_b st));
            Printf 0 (ShowN (par_n st))]
      else []).

Definition run (p : Z) (argv : list string) : outcome :=
  match read_args argv with
  | None => Undefined
  | Some st0 =>
      let pre := verbose_trace argv st0 in
      if (par_n st0 <=? 0)%Z then
        Aborted 1 (pre ++ [Printf 0 (Text error_text); MPI_Abort 1])
      else
        let world := st0 :: repeat defaults (Z.to_nat p - 1) in
        let world := bcast world in
        let bc := [MPI_Bcast_float 0 (par_a st0);
                   MPI_Bcast_float 0 (par_b st0);
                   MPI_Bcast_int 0 (par_n st0)] in
        let work := map (fun rs => rank_work p (fst rs) (snd rs))
                        (combine (ranks p) world) in
        let total := Qsum (map fst work) in
        Finalized
          (pre ++ bc ++ map snd work
           ++ [MPI_Reduce_sum 0 total;
               Printf 0 (EstimateHead (par_n st0));
               Printf 0 (EstimateLine (par_a st0) (par_b st0) total);
               Printf 0 (TrueValueLine (true_value (par_a st0) (par_b st0)))])
  end.

End Main.

(** ** Decimal readers used to run the model on concrete command lines

    [atoi_dec] and [atof_dec] are what the library's [atoi] and [atof]
    return on plain decimal numerals.  [atof_as_int] is one value the call
    of the undeclared [atof] can have: the integer read back is 0 whatever
    the string. *)

Definition is_space (c : ascii) : bool :=
  let k := nat_of_ascii c in
  (Nat.eqb k 32 || (Nat.leb 9 k && Nat.leb k 13))%bool.

Definition digit_of (c : ascii) : option Z :=
  let k := nat_of_ascii c in
  if (Nat.leb 48 k && Nat.leb k 57)%bool then Some (Z.of_nat (k - 48)) else None.

Fixpoint skip_space (s : string) : string :=
  match s with
  | String c s' => if is_space c then skip_space s' else s
  | EmptyString => s
  end.

(** Reads the leading digits of [s] onto [acc]; returns the value, how many
    digits were read and the rest of the string. *)
Fixpoint read_digits (s : string) (acc : Z) (cnt : nat) : Z * nat * string :=
  match s with
  | String c s' =>
      match digit_of c with
      | Some d => read_digits s' (10 * acc + d)%Z (S cnt)
      | None => (acc, cnt, s)
      end
  | EmptyString => (acc, cnt, s)
  end.

Definition read_sign (s : string) : bool * string :=
  match s with
  | String "-"%char s' => (true, s')
  | String "+"%char s' => (false, s')
  | _ => (false, s)
  end.

(** [atoi] on an optionally signed decimal numeral (value within [int]). *)
Definition atoi_dec (s : string) : Z :=
  let '(neg, s1) := read_sign (skip_space s) in
  let '(v, _, _) := read_digits s1 0%Z 0%nat in
  if neg then (- v)%Z else v.

(** [atof] on an optionally signed decimal numeral with an optional
    fraction part and no exponent, as an exact rational. *)
Definition atof_dec (s : string) : Q :=
  let '(neg, s1) := read_sign (skip_space s) in
  let '(ip, _, s2) := read_digits s1 0%Z 0%nat in
  let v :=
    match s2 with
    | String "."%char s3 =>
        let '(fp, k, _) := read_digits s3 0%Z 0%nat in
        inject_Z ip + inject_Z fp / inject_Z (10 ^ Z.of_nat k)
    | _ => inject_Z ip
    end in
  if neg then - v else v.

(** ** Auxiliary notions used in the statements *)

(** Number of subintervals held by the ranks below [my_rank]: the
    "sum of local_n for ranks 0..rank-1" of the specification. *)
Definition prefix_n (n p my_rank : Z) : Z :=
  Zsum (map (local_n n p) (ranks my_rank)).

(** The area of the trapezoid of width [h] that starts at [x]. *)
Definition cell (h x : Q) : Q := h * ((f x + f (x + h)) / 2).

(** The trapezoids number [lo .. hi] of the grid [a, a+h, a+2h, ...]. *)
Definition cells (a h : Q) (lo hi : Z) : Q :=
  Qsum (map (fun j => cell h (a + inject_Z j * h)) (Zrange lo hi)).

(** The value delivered by [MPI_Reduce] in a trace, if the run got there. *)
Fixpoint reduced (tr : list event) : option Q :=
  match tr with
  | [] => None
  | MPI_Reduce_sum _ total :: _ => Some total
  | _ :: tr' => reduced tr'
  end.

Definition total_of (o : outcome) : option Q :=
  match o with
  | Finalized tr => reduced tr
  | _ => None
  end.

(** Events that exist only past the abort check: a broadcast, a rank's
    partition report, the reduction. *)
Definition past_check (e : event) : bool :=
  match e with
  | MPI_Bcast_float _ _ | MPI_Bcast_int _ _ | MPI_Reduce_sum _ _ => true
  | Printf _ (ProcessLine _ _ _ _) => true
  | _ => false
  end.

Definition is_abort (e : event) : bool :=
  match e with
  | MPI_Abort _ => true
  | _ => false
  end.

(** The partition reports ["Process %d: %d subintervals from %f to %f"]. *)
Definition is_process_line (e : event) : bool :=
  match e with
  | Printf _ (ProcessLine _ _ _ _) => true
  | _ => false
  end.

Definition atof_as_int (s : string) : Z := 0%Z.

(** * Properties *)

Example tie_break_10_3 : map (local_n 10 3) (ranks 3) = [4; 3; 3]%Z.
Proof. reflexivity. Qed.

Example zero_width_2_5 :
  map (fun r => Qred (local_integral 0 1 2 5 r)) (ranks 5)
  = [1 # 16; 5 # 16; 1 # 2; 1 # 2; 1 # 2].
Proof. vm_compute. reflexivity. Qed.

Example atoi_dec_ex : map atoi_dec ["1024"; "0"; "-5"; " 42abc"; "x"]%string
                      = [1024; 0; -5; 42; 0]%Z.
Proof. reflexivity. Qed.

Example atof_dec_ex : map (fun s => Qred (atof_dec s)) ["0"; "1"; "2.5"; "-0.25"]%string
                      = [0; 1; 5 # 2; - (1 # 4)].
Proof. vm_compute. reflexivity. Qed.

Example run_abort_ex :
  run atof_as_int atoi_dec 4 ["trap"; "0"; "1"; "-5"]%string
  = Aborted 1 [Printf 0 (Text error_text); MPI_Abort 1].
Proof. vm_compute. reflexivity. Qed.

(** ** Lists of integers and sums *)

Lemma seq_from (len s : nat) :
  seq s len = map (fun k => (s + k)%nat) (seq 0 len).
Proof.
  induction s as [|s IH].
  - rewrite map_id. reflexivity.
  - rewrite <- seq_shift, IH, map_map. reflexivity.
Qed.

Lemma Zrange_nil (lo hi : Z) : (hi < lo)%Z -> Zrange lo hi = [].
Proof.
  intros H. unfold Zrange.
  replace (Z.to_nat (hi - lo + 1)) with 0%nat by lia. reflexivity.
Qed.

Lemma Zrange_app (lo mid hi : Z) :
  (lo <= mid + 1)%Z -> (mid <= hi)%Z ->
  Zrange lo hi = Zrange lo mid ++ Zrange (mid + 1) hi.
Proof.
  intros H1 H2. unfold Zrange.
  replace (Z.to_nat (hi - lo + 1))
    with (Z.to_nat (mid - lo + 1) + Z.to_nat (hi - (mid + 1) + 1))%nat by lia.
  rewrite seq_app, map_app. f_equal.
  rewrite Nat.add_0_l, (seq_from _ (Z.to_nat (mid - lo + 1))).
  rewrite map_map. apply map_ext. intros k. lia.
Qed.

Lemma Zrange_one (lo : Z) : Zrange lo lo = [lo].
Proof.
  unfold Zrange. replace (Z.to_nat (lo - lo + 1)) with 1%nat by lia.
  simpl. f_equal. lia.
Qed.

Lemma Zrange_cons (lo hi : Z) :
  (lo <= hi)%Z -> Zrange lo hi = lo :: Zrange (lo + 1) hi.
Proof.
  intros H. rewrite (Zrange_app lo lo hi) by lia.
  rewrite Zrange_one. reflexivity.
Qed.

Lemma Zrange_snoc (lo hi : Z) :
  (lo <= hi + 1)%Z -> Zrange lo (hi + 1) = Zrange lo hi ++ [(hi + 1)%Z].
Proof.
  intros H. rewrite (Zrange_app lo hi (hi + 1)) by lia.
  rewrite Zrange_one. reflexivity.
Qed.

Lemma Zrange_shift (d lo hi : Z) :
  Zrange (lo + d) (hi + d) = map (Z.add d) (Zrange lo hi).
Proof.
  unfold Zrange. rewrite map_map.
  replace (hi + d - (lo + d) + 1)%Z with (hi - lo + 1)%Z by lia.
  apply map_ext. intros k. lia.
Qed.

Lemma Qsum_cons (q : Q) (l : list Q) : Qsum (q :: l) = q + Qsum l.
Proof. reflexivity. Qed.

Lemma Qsum_app (l1 l2 : list Q) : Qsum (l1 ++ l2) == Qsum l1 + Qsum l2.
Proof.
  induction l1 as [|q l1 IH]; simpl.
  - ring.
  - rewrite IH. ring.
Qed.

Lemma Qsum_map_ext {A : Type} (g1 g2 : A -> Q) (l : list A) :
  (forall x, In x l -> g1 x == g2 x) ->
  Qsum (map g1 l) == Qsum (map g2 l).
Proof.
  induction l as [|x l IH]; intros H; simpl.
  - reflexivity.
  - rewrite (H x (or_introl eq_refl)), IH.
    + reflexivity.
    + intros y Hy. apply H. right. exact Hy.
Qed.

Lemma Zsum_app (l1 l2 : list Z) : Zsum (l1 ++ l2) = (Zsum l1 + Zsum l2)%Z.
Proof. induction l1 as [|z l1 IH]; simpl; lia. Qed.

Lemma ranks_S (k : nat) :
  ranks (Z.of_nat (S k)) = ranks (Z.of_nat k) ++ [Z.of_nat k].
Proof.
  unfold ranks. rewrite !Nat2Z.id, seq_S, map_app. reflexivity.
Qed.

(** ** The integrand and the integrator respect equality of rationals *)

#[export] Instance f_Proper : Proper (Qeq ==> Qeq) f.
Proof. intros x y E. unfold f. rewrite E. reflexivity. Qed.

Lemma Trap_for_Qeq (fuel : nat) :
  forall (i ln : Z) (x x' s s' h h' : Q),
    x == x' -> s == s' -> h == h' ->
    Trap_for fuel i ln x s h == Trap_for fuel i ln x' s' h'.
Proof.
  induction fuel as [|fuel IH]; intros i ln x x' s s' h h' Ex Es Eh; simpl.
  - exact Es.
  - destruct (i <=? ln - 1)%Z; [|exact Es].
    apply IH; [| |exact Eh].
    + rewrite Ex, Eh. reflexivity.
    + rewrite Ex, Es, Eh. reflexivity.
Qed.

Lemma Trap_Qeq (la la' lb lb' : Q) (ln : Z) (h h' : Q) :
  la == la' -> lb == lb' -> h == h' ->
  Trap la lb ln h == Trap la' lb' ln h'.
Proof.
  intros Ea Eb Eh. unfold Trap.
  rewrite (Trap_for_Qeq _ 1%Z ln la la' ((f la + f lb) / 2) ((f la' + f lb') / 2) h h');
    try assumption.
  - rewrite Eh. reflexivity.
  - rewrite Ea, Eb. reflexivity.
Qed.

(** ** The loop of [Trap] in closed form *)

(** With enough fuel the loop runs [local_n - i] times (none when that is
    not positive) and adds [f] at [x + h], [x + 2h], ... to [integral]. *)
Lemma Trap_for_closed (fuel : nat) :
  forall (i ln : Z) (x s h : Q),
    (Z.to_nat (ln - i) <= fuel)%nat ->
    Trap_for fuel i ln x s h
    == s + Qsum (map (fun k => f (x + inject_Z k * h)) (Zrange 1 (ln - i))).
Proof.
  induction fuel as [|fuel IH]; intros i ln x s h Hfuel; simpl.
  - rewrite Zrange_nil by lia. simpl. ring.
  - destruct (Z.leb_spec i (ln - 1)) as [Hle|Hgt].
    + assert (ER : Zrange 1 (ln - i)
                   = 1%Z :: map (Z.add 1) (Zrange 1 (ln - (i + 1)))).
      { rewrite Zrange_cons by lia. f_equal.
        rewrite <- Zrange_shift. f_equal. lia. }
      rewrite ER, IH by lia.
      rewrite map_cons, Qsum_cons, map_map.
      rewrite (Qsum_map_ext
                 (fun k => f (x + inject_Z (1 + k) * h))
                 (fun k => f (x + h + inject_Z k * h))).
      * assert (E : x + inject_Z 1 * h == x + h) by ring.
        rewrite E. ring.
      * intros k _. apply f_Proper. rewrite inject_Z_plus. ring.
    + rewrite Zrange_nil by lia. simpl. ring.
Qed.

(** The number of iterations never exceeds the fuel [Trap] supplies, so the
    result of [Trap] is the result of the C loop run to its exit. *)
Lemma Trap_fuel_enough (ln : Z) : (Z.to_nat (ln - 1) <= Z.to_nat ln)%nat.
Proof. lia. Qed.

(** [Trap] computes the composite formula, whatever [local_n] is. *)
Lemma Trap_trapezoid_spec (local_a local_b : Q) (local_n : Z) (h : Q) :
  Trap local_a local_b local_n h == trapezoid_spec local_a local_b local_n h.
Proof.
  unfold Trap, trapezoid_spec.
  rewrite Trap_for_closed by apply Trap_fuel_enough. ring.
Qed.

(** C4.  For every [local_a], [local_b], [h] and every [local_n >= 0],
    [Trap local_a local_b local_n h], which steps the sample point by
    repeated addition of [h], equals in exact arithmetic
    [h * ((f local_a + f local_b)/2 + sum_{i=1}^{local_n-1} f (local_a + i*h))]
    with [f x = x*x]. *)
Theorem Trap_closed_form (local_a local_b : Q) (local_n : Z) (h : Q) :
  (0 <= local_n)%Z ->
  Trap local_a local_b local_n h == trapezoid_spec local_a local_b local_n h
  /\ forall x, f x == x * x.
Proof.
  intros _. split.
  - apply Trap_trapezoid_spec.
  - intros x. reflexivity.
Qed.

Lemma Trap_closed_form_witness :
  (0 <= 3)%Z /\
  Trap 0 (3 # 2) 3 (1 # 2) == trapezoid_spec 0 (3 # 2) 3 (1 # 2).
Proof.
  split; [lia|]. apply (Trap_closed_form 0 (3 # 2) 3 (1 # 2)). lia.
Defined.

(** ** The partition *)

Lemma local_n_eq (n p r : Z) :
  local_n n p r
  = if (r <? Z.rem n p)%Z then (Z.quot n p + 1)%Z else Z.quot n p.
Proof.
  unfold local_n, local_part. destruct (r <? Z.rem n p)%Z; reflexivity.
Qed.

Lemma part_n_local_n (a b : Q) (n p r : Z) :
  part_n (local_part a b n p r) = local_n n p r.
Proof.
  unfold local_n, local_part. destruct (r <? Z.rem n p)%Z; reflexivity.
Qed.

(** For the inputs the program accepts, C's truncating [/] and [%] are the
    floor division and modulus. *)
Lemma quot_rem_nonneg (n p : Z) :
  (0 <= n)%Z -> (1 <= p)%Z ->
  Z.quot n p = (n / p)%Z /\ Z.rem n p = (n mod p)%Z.
Proof.
  intros Hn Hp. split.
  - apply Z.quot_div_nonneg; lia.
  - apply Z.rem_mod_nonneg; lia.
Qed.

(** No [int] computation of the partitioning leaves the range [0 .. n]:
    [n/p], [n%p], [my_rank*local_n] and the incremented [local_n]. *)
Lemma partition_ints_bounded (n p r : Z) :
  (1 <= n)%Z -> (1 <= p)%Z -> (0 <= r < p)%Z ->
  (0 <= Z.quot n p <= n)%Z /\ (0 <= Z.rem n p < p)%Z
  /\ (0 <= r * Z.quot n p <= n)%Z /\ (0 <= local_n n p r <= n)%Z.
Proof.
  intros Hn Hp Hr.
  destruct (quot_rem_nonneg n p) as [Eq Er]; [lia|lia|].
  rewrite local_n_eq, Eq, Er.
  pose proof (Z.div_mod n p ltac:(lia)) as Hdm.
  pose proof (Z.mod_pos_bound n p ltac:(lia)) as Hm.
  assert (Hq : (0 <= n / p)%Z) by (apply Z.div_pos; lia).
  repeat split; try lia; try nia.
  - destruct (Z.ltb_spec r (n mod p)); nia.
  - destruct (Z.ltb_spec r (n mod p)); nia.
Qed.

Lemma prefix_n_closed (n p : Z) (k : nat) :
  (0 <= Z.rem n p)%Z ->
  prefix_n n p (Z.of_nat k)
  = (Z.of_nat k * Z.quot n p + Z.min (Z.of_nat k) (Z.rem n p))%Z.
Proof.
  intros Hres. unfold prefix_n. induction k as [|k IH].
  - simpl. lia.
  - rewrite ranks_S, map_app, Zsum_app, IH.
    unfold Zsum at 1. cbn [map fold_right].
    rewrite local_n_eq.
    destruct (Z.ltb_spec (Z.of_nat k) (Z.rem n p)); lia.
Qed.

Lemma prefix_n_succ (n p r : Z) :
  (0 <= r)%Z -> prefix_n n p (r + 1) = (prefix_n n p r + local_n n p r)%Z.
Proof.
  intros Hr. unfold prefix_n.
  replace (r + 1)%Z with (Z.of_nat (S (Z.to_nat r))) by lia.
  rewrite ranks_S, map_app, Zsum_app.
  unfold Zsum at 2. cbn [map fold_right].
  rewrite Z2Nat.id by lia. lia.
Qed.

Lemma prefix_n_total (n p : Z) :
  (1 <= n)%Z -> (1 <= p)%Z -> prefix_n n p p = n.
Proof.
  intros Hn Hp.
  destruct (quot_rem_nonneg n p) as [Eq Er]; [lia|lia|].
  pose proof (Z.mod_pos_bound n p ltac:(lia)) as Hm.
  rewrite <- (Z2Nat.id p) at 2 by lia.
  rewrite prefix_n_closed by lia.
  rewrite Z2Nat.id, Eq, Er by lia.
  pose proof (Z.div_mod n p ltac:(lia)). lia.
Qed.

(** C7.  Remainder tie-break: for [n >= 1] and [p >= 1], with
    [base_count = n / p] and [residual = n mod p], a rank below [residual]
    gets [local_n = base_count + 1] and every other rank gets
    [local_n = base_count]; for [n = 10], [p = 3] the ranks 0, 1, 2 get
    4, 3, 3. *)
Theorem remainder_tie_break (a b : Q) (n p my_rank : Z) :
  (1 <= n)%Z -> (1 <= p)%Z -> (0 <= my_rank < p)%Z ->
  let base_count := (n / p)%Z in
  let residual := (n mod p)%Z in
  ((my_rank < residual)%Z -> local_n n p my_rank = (base_count + 1)%Z)
  /\ ((residual <= my_rank)%Z -> local_n n p my_rank = base_count)
  /\ part_n (local_part a b n p my_rank) = local_n n p my_rank
  /\ map (local_n 10 3) (ranks 3) = [4; 3; 3]%Z.
Proof.
  intros Hn Hp Hr base_count residual.
  destruct (quot_rem_nonneg n p) as [Eq Er]; [lia|lia|].
  rewrite local_n_eq, Eq, Er. fold base_count residual.
  repeat split.
  - intros H. destruct (Z.ltb_spec my_rank residual); lia.
  - intros H. destruct (Z.ltb_spec my_rank residual); lia.
  - rewrite part_n_local_n, local_n_eq, Eq, Er. reflexivity.
Qed.

Lemma remainder_tie_break_witness :
  local_n 7 4 2 = 2%Z /\ local_n 7 4 3 = 1%Z.
Proof.
  destruct (remainder_tie_break 0 1 7 4 2) as (H1 & _); [lia|lia|lia|].
  destruct (remainder_tie_break 0 1 7 4 3) as (_ & H2 & _); [lia|lia|lia|].
  split.
  - apply H1. reflexivity.
  - apply H2. discriminate.
Defined.

(** C2.  Partition completeness: for [n >= 1] and [p >= 1] the [local_n] of
    the ranks [0 .. p-1] add up to [n]. *)
Theorem partition_complete (a b : Q) (n p : Z) :
  (1 <= n)%Z -> (1 <= p)%Z ->
  Zsum (map (fun my_rank => part_n (local_part a b n p my_rank)) (ranks p)) = n.
Proof.
  intros Hn Hp.
  rewrite (map_ext _ (local_n n p)) by (intros r; apply part_n_local_n).
  exact (prefix_n_total n p Hn Hp).
Qed.

Lemma partition_complete_witness :
  Zsum (map (fun my_rank => part_n (local_part 0 1 10 3 my_rank)) (ranks 3)) = 10%Z.
Proof. apply (partition_complete 0 1 10 3); lia. Defined.

(** The left end of a rank's range, from the subintervals below it. *)
Lemma part_a_prefix (a b : Q) (n p r : Z) :
  (0 <= Z.rem n p)%Z -> (0 <= r)%Z ->
  part_a (local_part a b n p r)
  == a + step_h a b n * inject_Z (prefix_n n p r).
Proof.
  intros Hres Hr.
  rewrite <- (Z2Nat.id r) at 2 by lia.
  rewrite prefix_n_closed, Z2Nat.id by lia.
  unfold local_part.
  destruct (Z.ltb_spec r (Z.rem n p)); cbn [part_a].
  - rewrite Z.min_l by lia.
    rewrite inject_Z_plus, !inject_Z_mult. ring.
  - rewrite Z.min_r by lia.
    rewrite inject_Z_plus, !inject_Z_mult. ring.
Qed.

Lemma part_b_eq (a b : Q) (n p r : Z) :
  part_b (local_part a b n p r)
  = part_a (local_part a b n p r)
    + inject_Z (part_n (local_part a b n p r)) * step_h a b n.
Proof.
  unfold local_part. destruct (r <? Z.rem n p)%Z; reflexivity.
Qed.

Lemma part_b_prefix (a b : Q) (n p r : Z) :
  (0 <= Z.rem n p)%Z -> (0 <= r)%Z ->
  part_b (local_part a b n p r)
  == a + step_h a b n * inject_Z (prefix_n n p (r + 1)).
Proof.
  intros Hres Hr.
  rewrite part_b_eq, part_a_prefix, part_n_local_n, prefix_n_succ by lia.
  rewrite inject_Z_plus. ring.
Qed.

Lemma step_h_total (a b : Q) (n : Z) :
  (1 <= n)%Z -> a + step_h a b n * inject_Z n == b.
Proof.
  intros Hn. unfold step_h. field.
  intros E. apply (proj1 (inject_Z_injective n 0)) in E. lia.
Qed.

(** C3.  Partition contiguity and coverage: for [n >= 1], [p >= 1] and a rank
    in [0, p), [local_a = a + h * (sum of local_n over the lower ranks)] with
    [h = (b-a)/n] and [local_b = local_a + local_n*h]; hence in exact
    arithmetic [local_b] of rank [r] is [local_a] of rank [r+1] for
    [r] in [0, p-1), rank 0 starts at [a] and rank [p-1] ends at [b]. *)
Theorem partition_contiguous (a b : Q) (n p : Z) :
  (1 <= n)%Z -> (1 <= p)%Z ->
  let h := step_h a b n in
  let part := local_part a b n p in
  (forall my_rank, (0 <= my_rank < p)%Z ->
     part_a (part my_rank)
     == a + h * inject_Z (Zsum (map (fun r => part_n (part r)) (ranks my_rank)))
     /\ part_b (part my_rank)
        == part_a (part my_rank) + inject_Z (part_n (part my_rank)) * h)
  /\ (forall r, (0 <= r < p - 1)%Z -> part_b (part r) == part_a (part (r + 1)%Z))
  /\ part_a (part 0%Z) == a
  /\ part_b (part (p - 1)%Z) == b.
Proof.
  intros Hn Hp h part. unfold h, part.
  destruct (quot_rem_nonneg n p) as [_ Er]; [lia|lia|].
  pose proof (Z.mod_pos_bound n p ltac:(lia)) as Hm.
  assert (Hres : (0 <= Z.rem n p)%Z) by lia.
  repeat split.
  - rewrite (map_ext _ (local_n n p)) by (intros r; apply part_n_local_n).
    apply part_a_prefix; lia.
  - rewrite part_b_eq. reflexivity.
  - intros r Hr. rewrite part_b_prefix, part_a_prefix by lia. reflexivity.
  - rewrite part_a_prefix by lia.
    change (prefix_n n p 0) with 0%Z. ring.
  - rewrite part_b_prefix by lia.
    replace (p - 1 + 1)%Z with p by lia.
    rewrite prefix_n_total by lia. apply step_h_total. exact Hn.
Qed.

Lemma partition_contiguous_witness :
  part_b (local_part 0 1 10 3 0) == part_a (local_part 0 1 10 3 (0 + 1))
  /\ part_b (local_part 0 1 10 3 (3 - 1)) == 1.
Proof.
  destruct (partition_contiguous 0 1 10 3) as (_ & Hc & _ & Hb); [lia|lia|].
  split.
  - apply Hc. lia.
  - exact Hb.
Defined.

(** ** Partitioning does not change the estimate *)

Lemma cell_Qeq (h x x' : Q) : x == x' -> cell h x == cell h x'.
Proof. intros E. unfold cell. rewrite E. reflexivity. Qed.

(** Summing trapezoids one by one gives the composite formula. *)
Lemma cells_composite (x h : Q) (m : nat) :
  cells x h 0 (Z.of_nat m)
  == h * ((f x + f (x + inject_Z (Z.of_nat m + 1) * h)) / 2
          + Qsum (map (fun i => f (x + inject_Z i * h))
                      (Zrange 1 (Z.of_nat m)))).
Proof.
  unfold cells. induction m as [|m IH].
  - rewrite Zrange_one, Zrange_nil by lia.
    cbn [map Qsum fold_right Z.of_nat Z.add]. unfold cell, f.
    change (inject_Z 0) with 0. change (inject_Z 1) with 1. field.
  - rewrite Nat2Z.inj_succ. unfold Z.succ.
    rewrite (Zrange_snoc 0), (Zrange_snoc 1) by lia.
    rewrite !map_app, !Qsum_app, IH.
    cbn [map Qsum fold_right]. unfold cell, f.
    rewrite !inject_Z_plus. change (inject_Z 1) with 1. field.
Qed.

(** A rank with at least one subinterval integrates exactly its cells. *)
Lemma Trap_cells (la lb : Q) (ln : Z) (h : Q) :
  (1 <= ln)%Z -> lb == la + inject_Z ln * h ->
  Trap la lb ln h == cells la h 0 (ln - 1).
Proof.
  intros Hln Hlb.
  rewrite Trap_trapezoid_spec. unfold trapezoid_spec.
  replace (ln - 1)%Z with (Z.of_nat (Z.to_nat (ln - 1))) by lia.
  rewrite cells_composite.
  replace (Z.of_nat (Z.to_nat (ln - 1)) + 1)%Z with ln by lia.
  rewrite Hlb. reflexivity.
Qed.

Lemma cells_shift (a h : Q) (d lo hi : Z) :
  cells a h (lo + d) (hi + d) == cells (a + inject_Z d * h) h lo hi.
Proof.
  unfold cells. rewrite Zrange_shift, map_map.
  apply Qsum_map_ext. intros j _. apply cell_Qeq.
  rewrite inject_Z_plus. ring.
Qed.

Lemma cells_app (a h : Q) (lo mid hi : Z) :
  (lo <= mid + 1)%Z -> (mid <= hi)%Z ->
  cells a h lo hi == cells a h lo mid + cells a h (mid + 1) hi.
Proof.
  intros H1 H2. unfold cells.
  rewrite (Zrange_app lo mid hi), map_app, Qsum_app by lia. reflexivity.
Qed.

(** The first [k] ranks together integrate the cells below [prefix_n k],
    provided every rank has at least one subinterval ([p <= n]). *)
Lemma reduce_prefix (a b : Q) (n p : Z) (k : nat) :
  (1 <= p <= n)%Z ->
  Qsum (map (local_integral a b n p) (ranks (Z.of_nat k)))
  == cells a (step_h a b n) 0 (prefix_n n p (Z.of_nat k) - 1).
Proof.
  intros Hp.
  destruct (quot_rem_nonneg n p) as [Eq Er]; [lia|lia|].
  pose proof (Z.mod_pos_bound n p ltac:(lia)) as Hm.
  assert (Hq : (1 <= Z.quot n p)%Z).
  { rewrite Eq. apply Z.div_le_lower_bound; lia. }
  induction k as [|k IH].
  - reflexivity.
  - rewrite ranks_S, map_app, Qsum_app, IH.
    cbn [map Qsum fold_right].
    replace (Z.of_nat (S k)) with (Z.of_nat k + 1)%Z by lia.
    rewrite prefix_n_succ by lia.
    assert (Hln : (1 <= local_n n p (Z.of_nat k))%Z).
    { rewrite local_n_eq. destruct (Z.of_nat k <? Z.rem n p)%Z; lia. }
    assert (Hpre : (0 <= prefix_n n p (Z.of_nat k))%Z).
    { rewrite prefix_n_closed by lia. nia. }
    rewrite (cells_app a _ 0 (prefix_n n p (Z.of_nat k) - 1)
               (prefix_n n p (Z.of_nat k) + local_n n p (Z.of_nat k) - 1))
      by lia.
    apply Qplus_comp; [reflexivity|].
    unfold local_integral.
    rewrite Trap_cells; [| rewrite part_n_local_n; exact Hln
                         | rewrite part_b_eq; reflexivity ].
    rewrite part_n_local_n.
    replace (prefix_n n p (Z.of_nat k) - 1 + 1)%Z
      with (0 + prefix_n n p (Z.of_nat k))%Z by lia.
    replace (prefix_n n p (Z.of_nat k) + local_n n p (Z.of_nat k) - 1)%Z
      with (local_n n p (Z.of_nat k) - 1 + prefix_n n p (Z.of_nat k))%Z by lia.
    rewrite cells_shift.
    unfold cells. rewrite Qplus_0_r.
    apply Qsum_map_ext. intros j _. apply cell_Qeq.
    rewrite part_a_prefix by lia. ring.
Qed.

(** Whenever no rank is left without a subinterval, the reduced total is the
    estimate a single process computes over the whole of [a, b]. *)
Lemma reduce_total_Trap (a b : Q) (n p : Z) :
  (1 <= p <= n)%Z ->
  reduce_total a b n p == Trap a b n (step_h a b n).
Proof.
  intros Hp. unfold reduce_total.
  rewrite <- (Z2Nat.id p) at 2 by lia.
  rewrite reduce_prefix by lia.
  rewrite Z2Nat.id, prefix_n_total by lia.
  rewrite Trap_cells; [reflexivity | lia |].
  rewrite <- (step_h_total a b n) at 1 by lia. ring.
Qed.

(** ** The run *)

Lemma combine_repeat {A B C : Type} (g : A -> B -> C) (c : B) (l : list A) :
  map (fun rs => g (fst rs) (snd rs)) (combine l (repeat c (List.length l)))
  = map (fun r => g r c) l.
Proof.
  induction l as [|x l IH]; simpl.
  - reflexivity.
  - rewrite IH. reflexivity.
Qed.

Lemma bcast_world (st0 : params) (p : Z) :
  (1 <= p)%Z ->
  bcast (st0 :: repeat defaults (Z.to_nat p - 1))
  = repeat st0 (List.length (ranks p)).
Proof.
  intros Hp. unfold bcast, ranks.
  rewrite length_map, length_seq.
  replace (Z.to_nat p) with (S (Z.to_nat p - 1)) at 2 by lia.
  cbn [map repeat]. f_equal.
  induction (Z.to_nat p - 1)%nat as [|k IH]; simpl; congruence.
Qed.

Section RunFacts.

Variable atof : string -> Z.
Variable atoi : string -> Z.

(** The shape of a run that passes the check of [n]. *)
Lemma run_finalized (p : Z) (argv : list string) (st : params) :
  read_args atof atoi argv = Some st -> (1 <= par_n st)%Z -> (1 <= p)%Z ->
  run atof atoi p argv
  = Finalized
      ([MPI_Bcast_float 0 (par_a st); MPI_Bcast_float 0 (par_b st);
        MPI_Bcast_int 0 (par_n st)]
       ++ map (fun r => snd (rank_work p r st)) (ranks p)
       ++ [MPI_Reduce_sum 0 (reduce_total (par_a st) (par_b st) (par_n st) p);
           Printf 0 (EstimateHead (par_n st));
           Printf 0 (EstimateLine (par_a st) (par_b st)
                       (reduce_total (par_a st) (par_b st) (par_n st) p));
           Printf 0 (TrueValueLine (true_value (par_a st) (par_b st)))]).
Proof.
  intros Hread Hn Hp. unfold run. rewrite Hread.
  destruct (Z.leb_spec (par_n st) 0) as [H|_]; [lia|].
  rewrite bcast_world by exact Hp.
  rewrite (combine_repeat (rank_work p) st (ranks p)).
  rewrite !map_map.
  change (verbose_trace argv st) with (@nil event).
  reflexivity.
Qed.

Lemma run_total (p : Z) (argv : list string) (st : params) :
  read_args atof atoi argv = Some st -> (1 <= par_n st)%Z -> (1 <= p)%Z ->
  total_of (run atof atoi p argv)
  = Some (reduce_total (par_a st) (par_b st) (par_n st) p).
Proof.
  intros Hread Hn Hp. rewrite (run_finalized p argv st Hread Hn Hp).
  unfold total_of. cbn [app reduced].
  induction (ranks p) as [|r l IH]; simpl.
  - reflexivity.
  - exact IH.
Qed.

(** C6.  When the value of [n] read at rank 0 is [<= 0] (for any [p]) the
    run is the error message at rank 0 followed by one [MPI_Abort] with
    error code 1, and nothing else: no broadcast, no partition, no
    reduction.  When [n >= 1] the run is finalized and contains neither the
    error message nor an abort. *)
Theorem abort_on_nonpositive_n (p : Z) (argv : list string) (st : params) :
  read_args atof atoi argv = Some st ->
  ((par_n st <= 0)%Z ->
     run atof atoi p argv
     = Aborted 1 [Printf 0 (Text error_text); MPI_Abort 1]
     /\ forallb (fun e => negb (past_check e))
                [Printf 0 (Text error_text); MPI_Abort 1] = true)
  /\ ((1 <= par_n st)%Z ->
      exists tr, run atof atoi p argv = Finalized tr
                 /\ forallb (fun e => negb (is_abort e)) tr = true
                 /\ ~ In (Printf 0 (Text error_text)) tr).
Proof.
  intros Hread. unfold run. rewrite Hread.
  change (verbose_trace argv st) with (@nil event). split.
  - intros Hn. destruct (Z.leb_spec (par_n st) 0) as [_|H]; [|lia].
    split; reflexivity.
  - intros Hn. destruct (Z.leb_spec (par_n st) 0) as [H|_]; [lia|].
    eexists. split; [reflexivity|].
    cbn [app forallb is_abort negb andb]. rewrite !map_map. split.
    + rewrite forallb_app. cbn [forallb is_abort negb andb].
      rewrite andb_true_r. apply forallb_forall.
      intros e He. apply in_map_iff in He. destruct He as [rs [<- _]].
      reflexivity.
    + intros [H|[H|[H|H]]]; try discriminate.
      apply in_app_or in H. destruct H as [H|H].
      * apply in_map_iff in H. destruct H as [rs [H _]]. discriminate.
      * destruct H as [H|[H|[H|[H|[]]]]]; discriminate.
Qed.

(** C8.  Without command-line arguments rank 0 keeps the defaults
    [a = 0.0], [b = 1.0], [n = 1024], and with positional arguments the
    third is read by [atoi] into [n]; but the first and the second are not
    parsed as floating point into [a] and [b]: [atof] is called without a
    declaration, so [a] and [b] receive an [int] converted to [float].  On
    the command line [trap 0.5 2 10] the value of [a] is a whole number and
    so differs from the 0.5 that the library's [atof] reads. *)
Theorem cli_float_arguments_not_parsed :
  defaults = mkParams 0 1 1024
  /\ read_args atof atoi [] = Some defaults
  /\ (forall prog, read_args atof atoi [prog] = Some defaults)
  /\ (forall prog s1 s2 s3 rest,
        read_args atof atoi (prog :: s1 :: s2 :: s3 :: rest)
        = Some (mkParams (inject_Z (atof s1)) (inject_Z (atof s2))
                         (atoi s3)))
  /\ (exists st,
        read_args atof atoi ["trap"; "0.5"; "2"; "10"]%string = Some st
        /\ atof_dec "0.5" == 1 # 2
        /\ ~ par_a st == atof_dec "0.5").
Proof.
  split; [reflexivity|]. split; [reflexivity|]. split; [reflexivity|]. split.
  - intros prog s1 s2 s3 rest. unfold read_args, argc_of.
    cbn [List.length argv_at nth_error].
    destruct (Z.gtb_spec (Z.of_nat (S (S (S (S (List.length rest)))))) 1) as [_|H];
      [reflexivity | lia].
  - eexists. split; [reflexivity|].
    assert (Hd : atof_dec "0.5" == 1 # 2) by (vm_compute; reflexivity).
    split; [exact Hd|].
    cbn [par_a]. rewrite Hd. unfold Qeq. cbn [Qnum Qden inject_Z]. lia.
Qed.


End RunFacts.

Lemma abort_on_nonpositive_n_witness :
  run atof_as_int atoi_dec 4 ["trap"; "0"; "1"; "-5"]%string
  = Aborted 1 [Printf 0 (Text error_text); MPI_Abort 1]
  /\ run atof_as_int atoi_dec 3 ["trap"; "0"; "1"; "0"]%string
     = Aborted 1 [Printf 0 (Text error_text); MPI_Abort 1]
  /\ exists tr, run atof_as_int atoi_dec 2 ["trap"; "0"; "1"; "4"]%string
                = Finalized tr.
Proof.
  split; [|split].
  - apply (abort_on_nonpositive_n atof_as_int atoi_dec 4
             ["trap"; "0"; "1"; "-5"]%string
             (mkParams 0 0 (-5)));
      [reflexivity | cbn; lia].
  - apply (abort_on_nonpositive_n atof_as_int atoi_dec 3
             ["trap"; "0"; "1"; "0"]%string
             (mkParams 0 0 0));
      [reflexivity | cbn; lia].
  - destruct (abort_on_nonpositive_n atof_as_int atoi_dec 2
                ["trap"; "0"; "1"; "4"]%string
                (mkParams 0 0 4) eq_refl)
      as [_ H].
    destruct H as [tr [E _]]; [cbn; lia|].
    exists tr. exact E.
Defined.


(** ** The reported true value *)

(** C9.  The true value printed at rank 0, [(pow(b,3) - pow(a,3)) / 3.0], is
    [(b^3 - a^3)/3] in exact arithmetic: [1/3] for [a = 0], [b = 1] and [8/3]
    for [a = 0], [b = 2]; it is the last line of every finalized run. *)
Theorem true_value_closed_form :
  (forall a b, true_value a b == (b * b * b - a * a * a) / 3)
  /\ true_value 0 1 == 1 # 3
  /\ true_value 0 2 == 8 # 3
  /\ (forall atof atoi p argv st,
        read_args atof atoi argv = Some st ->
        (1 <= par_n st)%Z -> (1 <= p)%Z ->
        exists tr,
          run atof atoi p argv
          = Finalized
              (tr ++ [Printf 0 (TrueValueLine
                                  (true_value (par_a st) (par_b st)))])).
Proof.
  repeat split.
  - intros a b. unfold true_value, pow. simpl. field.
  - intros atof atoi p argv st Hread Hn Hp.
    rewrite (run_finalized atof atoi p argv st Hread Hn Hp).
    eexists.
    rewrite (app_assoc _ _ [_; _; _; _]).
    change [?e1; ?e2; ?e3; ?e4] with ([e1; e2; e3] ++ [e4]).
    rewrite app_assoc. reflexivity.
Qed.

Lemma true_value_closed_form_witness :
  exists tr,
    run atof_as_int atoi_dec 2 ["trap"%string]
    = Finalized (tr ++ [Printf 0 (TrueValueLine (true_value 0 1))]).
Proof.
  destruct true_value_closed_form as (_ & _ & _ & H).
  apply (H atof_as_int atoi_dec 2%Z ["trap"%string] defaults);
    [reflexivity | cbn; lia | lia].
Defined.

(** ** Partition-then-reduce against the single-process estimate *)

(** C5.  For [a = 0], [b = 1], [n = 1024] and each [p] in [{1, 2, 4, 8}],
    the total delivered by the reduction of a run with the default
    parameters is [reduce_total 0 1 1024 p] and equals, in exact arithmetic,
    the single-process estimate [Trap a b n h], which is also the total of
    the run with [p = 1]. *)
Theorem partitioning_preserves_estimate :
  Forall (fun p =>
            reduce_total 0 1 1024 p == Trap 0 1 1024 (step_h 0 1 1024)
            /\ reduce_total 0 1 1024 p == reduce_total 0 1 1024 1
            /\ forall atof atoi prog,
                 total_of (run atof atoi p [prog])
                 = Some (reduce_total 0 1 1024 p))
         [1; 2; 4; 8]%Z.
Proof.
  assert (H : forall p, (1 <= p <= 1024)%Z ->
            reduce_total 0 1 1024 p == Trap 0 1 1024 (step_h 0 1 1024)
            /\ reduce_total 0 1 1024 p == reduce_total 0 1 1024 1
            /\ forall atof atoi prog,
                 total_of (run atof atoi p [prog])
                 = Some (reduce_total 0 1 1024 p)).
  { intros p Hp. split; [|split].
    - apply reduce_total_Trap. exact Hp.
    - rewrite !reduce_total_Trap by lia. reflexivity.
    - intros atof atoi prog.
      apply (run_total atof atoi p [prog] defaults);
        [reflexivity | cbn; lia | lia]. }
  repeat (apply Forall_cons; [apply H; lia|]). apply Forall_nil.
Qed.

(** ** Ranks without a subinterval *)

(** Over a zero-width range with [local_n = 0] the loop of [Trap] does not
    run and the end-point term is multiplied by [h]: the result is
    [h * f local_a], not 0. *)
Lemma Trap_zero_width (la lb h : Q) :
  la == lb -> Trap la lb 0 h == h * f la.
Proof.
  intros E. unfold Trap. cbn [Z.to_nat Trap_for].
  rewrite <- E. unfold f. field.
Qed.

(** When [p > n] every rank from [n] on has [local_n = 0] and the range
    [b, b], and hands [h * b * b] to the reduction. *)
Lemma zero_subinterval_rank (a b : Q) (n p r : Z) :
  (1 <= n < p)%Z -> (n <= r < p)%Z ->
  part_n (local_part a b n p r) = 0%Z
  /\ part_a (local_part a b n p r) == b
  /\ part_b (local_part a b n p r) == b
  /\ local_integral a b n p r == step_h a b n * (b * b).
Proof.
  intros Hn Hr.
  assert (Eq : Z.quot n p = 0%Z) by (apply Z.quot_small; lia).
  assert (Er : Z.rem n p = n) by (apply Z.rem_small; lia).
  assert (En : part_n (local_part a b n p r) = 0%Z).
  { rewrite part_n_local_n, local_n_eq, Eq, Er.
    destruct (Z.ltb_spec r n); lia. }
  assert (Ea : part_a (local_part a b n p r) == b).
  { unfold local_part. rewrite Eq, Er.
    destruct (Z.ltb_spec r n); [lia|]. cbn [part_a].
    rewrite Z.mul_0_r. change (inject_Z 0) with 0.
    transitivity (a + step_h a b n * inject_Z n);
      [ring | apply step_h_total; lia]. }
  assert (Eb : part_b (local_part a b n p r) == b).
  { rewrite part_b_eq, En, Ea. change (inject_Z 0) with 0. ring. }
  repeat split; try assumption.
  unfold local_integral. rewrite En.
  rewrite Trap_zero_width by (rewrite Ea, Eb; reflexivity).
  rewrite Ea. reflexivity.
Qed.

(** C1.  The run [n = 2], [p = 5] over [a = 0], [b = 1]: the ranks 2, 3, 4
    have [local_n = 0] and [local_a == local_b], and the value each of them
    hands to the reduction is [1/2], not 0; the reduced total is [15/8]
    where the trapezoidal estimate with two trapezoids is [3/8]. *)
Theorem zero_width_rank_contribution :
  map (fun r => part_n (local_part 0 1 2 5 r)) (ranks 5) = [1; 1; 0; 0; 0]%Z
  /\ Forall (fun r =>
               part_a (local_part 0 1 2 5 r) == part_b (local_part 0 1 2 5 r)
               /\ local_integral 0 1 2 5 r == 1 # 2
               /\ ~ local_integral 0 1 2 5 r == 0)
            [2; 3; 4]%Z
  /\ reduce_total 0 1 2 5 == 15 # 8
  /\ Trap 0 1 2 (step_h 0 1 2) == 3 # 8.
Proof.
  split; [reflexivity|]. split; [|split; vm_compute; reflexivity].
  repeat (apply Forall_cons;
          [split; [|split]; vm_compute; solve [reflexivity | discriminate]|]).
  apply Forall_nil.
Qed.

(** * Further properties of the code *)

(** ** The error of the estimate for [f x = x*x] *)

Lemma inject_Z_nonzero (n : Z) : (1 <= n)%Z -> ~ inject_Z n == 0.
Proof.
  intros Hn E. apply (proj1 (inject_Z_injective n 0)) in E. lia.
Qed.

(** One trapezoid exceeds the integral of [x*x] over its base by [h^3/6]. *)
Lemma cell_exact (h x : Q) :
  cell h x
  == ((x + h) * (x + h) * (x + h) - x * x * x) / 3 + h * h * h / 6.
Proof. unfold cell, f. field. Qed.

Lemma cells_exact (x h : Q) (m : nat) :
  cells x h 0 (Z.of_nat m)
  == ((x + inject_Z (Z.of_nat m + 1) * h) * (x + inject_Z (Z.of_nat m + 1) * h)
      * (x + inject_Z (Z.of_nat m + 1) * h) - x * x * x) / 3
     + inject_Z (Z.of_nat m + 1) * (h * h * h / 6).
Proof.
  unfold cells. induction m as [|m IH].
  - rewrite Zrange_one. cbn [map Z.of_nat Z.add].
    rewrite Qsum_cons. cbn [Qsum fold_right].
    rewrite cell_exact.
    change (inject_Z 0) with 0. change (inject_Z 1) with 1. field.
  - rewrite Nat2Z.inj_succ. unfold Z.succ.
    rewrite (Zrange_snoc 0) by lia.
    rewrite map_app, Qsum_app, IH.
    cbn [map]. rewrite Qsum_cons. cbn [Qsum fold_right].
    rewrite cell_exact, !inject_Z_plus.
    change (inject_Z 1) with 1. field.
Qed.

Lemma Trap_error (a b : Q) (n : Z) :
  (1 <= n)%Z ->
  Trap a b n (step_h a b n)
  == true_value a b + (b - a) * step_h a b n * step_h a b n / 6.
Proof.
  intros Hn.
  pose proof (inject_Z_nonzero n Hn) as Hnz.
  rewrite Trap_cells;
    [| exact Hn
     | rewrite <- (step_h_total a b n Hn) at 1; ring ].
  replace (n - 1)%Z with (Z.of_nat (Z.to_nat (n - 1))) by lia.
  rewrite cells_exact.
  replace (Z.of_nat (Z.to_nat (n - 1)) + 1)%Z with n by lia.
  unfold true_value, pow, step_h. simpl Qpower. field. exact Hnz.
Qed.

(** X1.  Whenever no rank is left without a subinterval ([1 <= p <= n]) the
    total a run reduces to rank 0 is, in exact arithmetic, what one process
    computes over the whole of [a, b]; hence it is the same for every such
    [p]. *)
Theorem total_independent_of_p (atof : string -> Z) (atoi : string -> Z)
        (argv : list string) (st : params) (p p' : Z) :
  read_args atof atoi argv = Some st ->
  (1 <= p <= par_n st)%Z -> (1 <= p' <= par_n st)%Z ->
  let a := par_a st in
  let b := par_b st in
  let n := par_n st in
  total_of (run atof atoi p argv) = Some (reduce_total a b n p)
  /\ reduce_total a b n p == Trap a b n (step_h a b n)
  /\ reduce_total a b n p == reduce_total a b n p'.
Proof.
  intros Hread Hp Hp' a b n. split; [|split].
  - apply run_total; [exact Hread | lia | lia].
  - apply reduce_total_Trap. exact Hp.
  - unfold a, b, n. rewrite !reduce_total_Trap by lia. reflexivity.
Qed.

Lemma total_independent_of_p_witness :
  reduce_total 0 1 1024 2 == reduce_total 0 1 1024 5.
Proof.
  apply (total_independent_of_p atof_as_int atoi_dec
           ["trap"%string] defaults 2 5);
    [reflexivity | cbn; lia | cbn; lia].
Defined.

(** X2.  For [1 <= p <= n] the reduced total exceeds the reported true value
    [(b^3 - a^3)/3] by exactly [(b - a) * h * h / 6], with [h = (b-a)/n]; so
    for [a <= b] the estimate is never below the true value. *)
Theorem estimate_error (a b : Q) (n p : Z) :
  (1 <= p <= n)%Z ->
  let h := step_h a b n in
  reduce_total a b n p == true_value a b + (b - a) * h * h / 6
  /\ (a <= b -> true_value a b <= reduce_total a b n p).
Proof.
  intros Hp h. unfold h.
  assert (E : reduce_total a b n p
              == true_value a b + (b - a) * step_h a b n * step_h a b n / 6).
  { rewrite reduce_total_Trap by exact Hp. apply Trap_error. lia. }
  split; [exact E|].
  intros Hab. rewrite E.
  rewrite <- (Qplus_0_r (true_value a b)) at 1.
  apply Qplus_le_r.
  assert (E2 : (b - a) * step_h a b n * step_h a b n / 6
               == (b - a) * (step_h a b n * step_h a b n) * (1 # 6)) by field.
  rewrite E2.
  apply Qmult_le_0_compat; [apply Qmult_le_0_compat|].
  - apply (proj1 (Qle_minus_iff a b)) in Hab. exact Hab.
  - apply (Qsqr_nonneg (step_h a b n)).
  - discriminate.
Qed.

Lemma estimate_error_witness :
  reduce_total 0 1 4 2 == true_value 0 1 + (1 - 0) * step_h 0 1 4 * step_h 0 1 4 / 6
  /\ true_value 0 1 <= reduce_total 0 1 4 2.
Proof.
  destruct (estimate_error 0 1 4 2) as [E L]; [lia|].
  split; [exact E|]. apply L. discriminate.
Defined.

(** ** More processes than subintervals *)

Lemma ranks_Zrange (p : Z) : ranks p = Zrange 0 (p - 1).
Proof.
  unfold ranks, Zrange.
  replace (Z.to_nat (p - 1 - 0 + 1)) with (Z.to_nat p) by lia.
  apply map_ext. intros k. lia.
Qed.

Lemma Zrange_In (lo hi k : Z) : In k (Zrange lo hi) -> (lo <= k <= hi)%Z.
Proof.
  unfold Zrange. rewrite in_map_iff. intros [j [<- Hj]].
  apply in_seq in Hj. lia.
Qed.

Lemma Zrange_length (lo hi : Z) :
  List.length (Zrange lo hi) = Z.to_nat (hi - lo + 1).
Proof. unfold Zrange. rewrite length_map, length_seq. reflexivity. Qed.

Lemma Qsum_const {A : Type} (g : A -> Q) (c : Q) (l : list A) :
  (forall x, In x l -> g x == c) ->
  Qsum (map g l) == inject_Z (Z.of_nat (List.length l)) * c.
Proof.
  induction l as [|x l IH]; intros H.
  - cbn [map Qsum fold_right List.length Z.of_nat].
    change (inject_Z 0) with 0. ring.
  - cbn [map List.length]. rewrite Qsum_cons, Nat2Z.inj_succ.
    unfold Z.succ. rewrite inject_Z_plus.
    rewrite (H x (or_introl eq_refl)), IH.
    + change (inject_Z 1) with 1. ring.
    + intros y Hy. apply H. right. exact Hy.
Qed.

(** The first [k] ranks integrate the cells below [prefix_n k] as soon as
    each of them has at least one subinterval. *)
Lemma reduce_prefix_busy (a b : Q) (n p : Z) (k : nat) :
  (0 <= Z.quot n p)%Z -> (0 <= Z.rem n p)%Z ->
  (forall r, (0 <= r < Z.of_nat k)%Z -> (1 <= local_n n p r)%Z) ->
  Qsum (map (local_integral a b n p) (ranks (Z.of_nat k)))
  == cells a (step_h a b n) 0 (prefix_n n p (Z.of_nat k) - 1).
Proof.
  intros Hq Hres. induction k as [|k IH]; intros Hbusy.
  - reflexivity.
  - rewrite ranks_S, map_app, Qsum_app, IH by (intros r Hr; apply Hbusy; lia).
    cbn [map]. rewrite Qsum_cons. cbn [Qsum fold_right].
    replace (Z.of_nat (S k)) with (Z.of_nat k + 1)%Z by lia.
    rewrite prefix_n_succ by lia.
    assert (Hln : (1 <= local_n n p (Z.of_nat k))%Z) by (apply Hbusy; lia).
    assert (Hpre : (0 <= prefix_n n p (Z.of_nat k))%Z).
    { rewrite prefix_n_closed by lia. nia. }
    rewrite (cells_app a _ 0 (prefix_n n p (Z.of_nat k) - 1)
               (prefix_n n p (Z.of_nat k) + local_n n p (Z.of_nat k) - 1))
      by lia.
    apply Qplus_comp; [reflexivity|].
    unfold local_integral.
    rewrite Trap_cells; [| rewrite part_n_local_n; exact Hln
                         | rewrite part_b_eq; reflexivity ].
    rewrite part_n_local_n.
    replace (prefix_n n p (Z.of_nat k) - 1 + 1)%Z
      with (0 + prefix_n n p (Z.of_nat k))%Z by lia.
    replace (prefix_n n p (Z.of_nat k) + local_n n p (Z.of_nat k) - 1)%Z
      with (local_n n p (Z.of_nat k) - 1 + prefix_n n p (Z.of_nat k))%Z by lia.
    rewrite cells_shift.
    unfold cells. rewrite Qplus_0_r.
    apply Qsum_map_ext. intros j _. apply cell_Qeq.
    rewrite part_a_prefix by lia. ring.
Qed.

Lemma reduce_total_idle (a b : Q) (n p : Z) :
  (1 <= n < p)%Z ->
  reduce_total a b n p
  == Trap a b n (step_h a b n)
     + inject_Z (p - n) * (step_h a b n * (b * b)).
Proof.
  intros Hn.
  assert (Eq : Z.quot n p = 0%Z) by (apply Z.quot_small; lia).
  assert (Er : Z.rem n p = n) by (apply Z.rem_small; lia).
  unfold reduce_total.
  rewrite ranks_Zrange, (Zrange_app 0 (n - 1) (p - 1)) by lia.
  rewrite map_app, Qsum_app.
  apply Qplus_comp.
  - rewrite <- ranks_Zrange.
    rewrite <- (Z2Nat.id n) at 2 by lia.
    rewrite reduce_prefix_busy; [| lia | lia |].
    + rewrite prefix_n_closed, Z2Nat.id, Eq, Er by lia.
      replace (n * 0 + Z.min n n - 1)%Z with (n - 1)%Z by lia.
      rewrite Trap_cells; [reflexivity | lia |].
      rewrite <- (step_h_total a b n) at 1 by lia. ring.
    + intros r Hr. rewrite local_n_eq, Eq, Er.
      destruct (Z.ltb_spec r n); lia.
  - rewrite (Qsum_const _ (step_h a b n * (b * b))).
    + rewrite Zrange_length.
      replace (Z.of_nat (Z.to_nat (p - 1 - (n - 1 + 1) + 1))) with (p - n)%Z
        by lia.
      reflexivity.
    + intros r Hr. apply Zrange_In in Hr.
      apply (zero_subinterval_rank a b n p r); lia.
Qed.



(** X4.  In exact arithmetic, with more processes than subintervals
    ([1 <= n < p]) the reduced total is the single-process estimate plus
    [(p - n) * h * b * b]; it agrees with the single-process estimate only
    when the interval is empty ([a == b]) or ends at [b == 0]. *)
Theorem total_with_idle_ranks (a b : Q) (n p : Z) :
  (1 <= n < p)%Z ->
  let h := step_h a b n in
  reduce_total a b n p == Trap a b n h + inject_Z (p - n) * (h * (b * b))
  /\ (reduce_total a b n p == Trap a b n h <-> a == b \/ b == 0).
Proof.
  intros Hn h. unfold h.
  pose proof (reduce_total_idle a b n p Hn) as E.
  split; [exact E|].
  pose proof (inject_Z_nonzero n ltac:(lia)) as Hnz.
  pose proof (inject_Z_nonzero (p - n) ltac:(lia)) as Hkz.
  rewrite E. clear E.
  set (T := Trap a b n (step_h a b n)). clearbody T. split.
  - intros H.
    assert (H0 : inject_Z (p - n) * (step_h a b n * (b * b)) == 0).
    { apply (Qplus_inj_l _ _ T). rewrite H. ring. }
    apply Qmult_integral in H0. destruct H0 as [H0|H0]; [contradiction|].
    apply Qmult_integral in H0. destruct H0 as [H0|H0].
    + left. unfold step_h in H0.
      assert (Hd : b - a == (b - a) / inject_Z n * inject_Z n)
        by (field; exact Hnz).
      rewrite H0 in Hd.
      apply (Qplus_inj_r _ _ (- a)).
      rewrite Qplus_opp_r. symmetry.
      transitivity (b - a); [reflexivity|]. rewrite Hd. ring.
    + right. apply Qmult_integral in H0. destruct H0; assumption.
  - intros [Hab|Hb].
    + unfold step_h. rewrite Hab. unfold Qdiv. ring.
    + assert (Hbb : b * b == 0) by (rewrite Hb; ring).
      rewrite Hbb. ring.
Qed.

Lemma total_with_idle_ranks_witness :
  reduce_total 0 1 2 5
  == Trap 0 1 2 (step_h 0 1 2) + inject_Z (5 - 2) * (step_h 0 1 2 * (1 * 1)).
Proof.
  apply (total_with_idle_ranks 0 1 2 5). lia.
Defined.

(** ** Where the ranges lie *)

Lemma step_h_nonneg (a b : Q) (n : Z) :
  (1 <= n)%Z -> a <= b -> 0 <= step_h a b n.
Proof.
  intros Hn Hab. unfold step_h. apply Qle_shift_div_l.
  - change 0 with (inject_Z 0). rewrite <- Zlt_Qlt. lia.
  - rewrite Qmult_0_l. apply (proj1 (Qle_minus_iff a b)). exact Hab.
Qed.

Lemma grid_mono (a h : Q) (k1 k2 : Z) :
  0 <= h -> (k1 <= k2)%Z -> a + h * inject_Z k1 <= a + h * inject_Z k2.
Proof.
  intros Hh Hk. apply Qplus_le_r.
  rewrite !(Qmult_comm h). apply Qmult_le_compat_r; [|exact Hh].
  rewrite <- Zle_Qle. exact Hk.
Qed.

Lemma prefix_n_bounds (n p r : Z) :
  (1 <= n)%Z -> (1 <= p)%Z -> (0 <= r < p)%Z ->
  (0 <= prefix_n n p r <= prefix_n n p (r + 1))%Z
  /\ (prefix_n n p (r + 1) <= n)%Z.
Proof.
  intros Hn Hp Hr.
  destruct (quot_rem_nonneg n p) as [Eq Er]; [lia|lia|].
  pose proof (Z.mod_pos_bound n p ltac:(lia)) as Hm.
  pose proof (Z.div_mod n p ltac:(lia)) as Hdm.
  assert (Hq : (0 <= n / p)%Z) by (apply Z.div_pos; lia).
  rewrite <- (Z2Nat.id r) at 1 2 by lia.
  replace (r + 1)%Z with (Z.of_nat (Z.to_nat (r + 1))) by lia.
  rewrite !prefix_n_closed by lia.
  rewrite !Z2Nat.id, Eq, Er by lia.
  split; [split|]; nia.
Qed.

(** X5.  In exact arithmetic, for [a <= b], [n >= 1], [p >= 1] every
    rank's range lies inside [a, b] and is not reversed, and the range of a
    lower rank ends no later than the range of a higher rank starts. *)
Theorem ranges_inside_and_ordered (a b : Q) (n p : Z) :
  (1 <= n)%Z -> (1 <= p)%Z -> a <= b ->
  let part := local_part a b n p in
  (forall r, (0 <= r < p)%Z ->
     a <= part_a (part r) /\ part_a (part r) <= part_b (part r)
     /\ part_b (part r) <= b)
  /\ (forall r r', (0 <= r < r')%Z -> (r' < p)%Z ->
        part_b (part r) <= part_a (part r')).
Proof.
  intros Hn Hp Hab part. unfold part.
  destruct (quot_rem_nonneg n p) as [Eq Er]; [lia|lia|].
  pose proof (Z.mod_pos_bound n p ltac:(lia)) as Hm.
  assert (Hres : (0 <= Z.rem n p)%Z) by lia.
  pose proof (step_h_nonneg a b n Hn Hab) as Hh.
  split.
  - intros r Hr.
    destruct (prefix_n_bounds n p r Hn Hp Hr) as [[H0 H1] H2].
    rewrite part_a_prefix, part_b_prefix by lia.
    split; [|split].
    + rewrite <- (Qplus_0_r a) at 1.
      assert (E0 : 0 == step_h a b n * inject_Z 0) by ring.
      rewrite E0. apply grid_mono; assumption.
    + apply grid_mono; assumption.
    + apply Qle_trans with (a + step_h a b n * inject_Z n);
        [apply grid_mono; assumption|].
      rewrite (step_h_total a b n Hn). apply Qle_refl.
  - intros r r' Hr Hr'.
    rewrite part_b_prefix, part_a_prefix by lia.
    apply grid_mono; [exact Hh|].
    assert (Hmono : forall d : nat,
               (r + 1 + Z.of_nat d < p + 1)%Z ->
               (prefix_n n p (r + 1) <= prefix_n n p (r + 1 + Z.of_nat d))%Z).
    { induction d as [|d IH]; intros Hd.
      - rewrite Z.add_0_r. lia.
      - destruct (prefix_n_bounds n p (r + 1 + Z.of_nat d) Hn Hp) as [[_ H1] _];
          [lia|].
        replace (r + 1 + Z.of_nat (S d))%Z with (r + 1 + Z.of_nat d + 1)%Z by lia.
        specialize (IH ltac:(lia)). lia. }
    replace r' with (r + 1 + Z.of_nat (Z.to_nat (r' - r - 1)))%Z by lia.
    apply Hmono. lia.
Qed.

Lemma ranges_inside_and_ordered_witness :
  part_b (local_part 0 1 10 3 0) <= part_a (local_part 0 1 10 3 2).
Proof.
  destruct (ranges_inside_and_ordered 0 1 10 3) as [_ H];
    [lia | lia | discriminate |].
  apply H; lia.
Defined.

(** X6.  Load balance: a lower rank never gets fewer subintervals than a
    higher one, and no two ranks differ by more than one subinterval. *)
Theorem local_n_balanced (a b : Q) (n p r r' : Z) :
  (r <= r')%Z ->
  let ln := fun my_rank => part_n (local_part a b n p my_rank) in
  (ln r' <= ln r <= ln r' + 1)%Z.
Proof.
  intros Hr ln. unfold ln. rewrite !part_n_local_n, !local_n_eq.
  destruct (Z.ltb_spec r (Z.rem n p)), (Z.ltb_spec r' (Z.rem n p)); lia.
Qed.

Lemma local_n_balanced_witness :
  (part_n (local_part 0 1 10 3 2) <= part_n (local_part 0 1 10 3 0)
   <= part_n (local_part 0 1 10 3 2) + 1)%Z.
Proof. apply (local_n_balanced 0 1 10 3 0 2). lia. Defined.

(** ** Even division, empty interval *)

(** X7.  When [p] divides [n] (the case the file header asks for) every rank
    gets [n/p] subintervals and the range
    [a + rank*(b-a)/p, a + (rank+1)*(b-a)/p] of width [(b-a)/p]. *)
Theorem even_division (a b : Q) (n p my_rank : Z) :
  (1 <= n)%Z -> (1 <= p)%Z -> Z.rem n p = 0%Z -> (0 <= my_rank < p)%Z ->
  let pt := local_part a b n p my_rank in
  let w := (b - a) / inject_Z p in
  part_n pt = Z.quot n p
  /\ part_a pt == a + inject_Z my_rank * w
  /\ part_b pt == a + inject_Z (my_rank + 1) * w.
Proof.
  intros Hn Hp Hrem Hr pt w. unfold pt, w.
  assert (En : n = (p * Z.quot n p)%Z).
  { pose proof (Z.quot_rem' n p) as H. rewrite Hrem in H. lia. }
  assert (Hq : (1 <= Z.quot n p)%Z) by nia.
  assert (Hln : local_n n p my_rank = Z.quot n p).
  { rewrite local_n_eq, Hrem. destruct (Z.ltb_spec my_rank 0); lia. }
  assert (Hpre : forall k, (0 <= k)%Z -> prefix_n n p k = (k * Z.quot n p)%Z).
  { intros k Hk. rewrite <- (Z2Nat.id k) at 1 by lia.
    rewrite prefix_n_closed, Z2Nat.id, Hrem by lia. lia. }
  pose proof (inject_Z_nonzero p Hp) as Hpz.
  pose proof (inject_Z_nonzero (Z.quot n p) Hq) as Hqz.
  assert (Eh : step_h a b n
               == (b - a) / (inject_Z p * inject_Z (Z.quot n p))).
  { unfold step_h. rewrite En at 1. rewrite inject_Z_mult. reflexivity. }
  split; [|split].
  - rewrite part_n_local_n. exact Hln.
  - rewrite part_a_prefix, Hpre, Eh, inject_Z_mult by lia.
    field. split; assumption.
  - rewrite part_b_prefix, Hpre, Eh, inject_Z_mult by lia.
    field. split; assumption.
Qed.

Lemma even_division_witness :
  part_n (local_part 0 1 1024 8 3) = Z.quot 1024 8
  /\ part_a (local_part 0 1 1024 8 3) == 0 + inject_Z 3 * ((1 - 0) / inject_Z 8).
Proof.
  destruct (even_division 0 1 1024 8 3) as (H1 & H2 & _);
    [lia | lia | reflexivity | lia |].
  split; assumption.
Defined.

Lemma Trap_h_zero (la lb : Q) (ln : Z) (h : Q) :
  h == 0 -> Trap la lb ln h == 0.
Proof.
  intros Hh. unfold Trap.
  set (T := Trap_for (Z.to_nat ln) 1%Z ln la ((f la + f lb) / 2) h).
  clearbody T. rewrite Hh. ring.
Qed.

(** X8.  In exact arithmetic (no rounding, no overflow), over an empty
    interval ([a == b]) every rank contributes 0 and the reduced total is 0,
    the reported true value, for every [n] and every number of processes
    (idle ranks included). *)
Theorem empty_interval_total (a b : Q) (n p : Z) :
  a == b ->
  (forall my_rank, local_integral a b n p my_rank == 0)
  /\ reduce_total a b n p == 0
  /\ true_value a b == 0.
Proof.
  intros Hab.
  assert (Hh : step_h a b n == 0).
  { unfold step_h. rewrite Hab. unfold Qdiv. ring. }
  assert (Hl : forall r, local_integral a b n p r == 0).
  { intros r. unfold local_integral. apply Trap_h_zero. exact Hh. }
  split; [exact Hl|]. split.
  - unfold reduce_total. rewrite (Qsum_const _ 0).
    + ring.
    + intros r _. apply Hl.
  - unfold true_value, pow. rewrite Hab. simpl Qpower. field.
Qed.

Lemma empty_interval_total_witness :
  reduce_total (3 # 2) (6 # 4) 2 5 == 0.
Proof.
  destruct (empty_interval_total (3 # 2) (6 # 4) 2 5) as (_ & H & _);
    [reflexivity | exact H].
Defined.

(** ** The partition reports of a run *)

Lemma filter_process_lines (p : Z) (st : params) (l : list Z) :
  filter is_process_line (map (fun r => snd (rank_work p r st)) l)
  = map (fun r => snd (rank_work p r st)) l.
Proof.
  induction l as [|r l IH]; cbn [map filter].
  - reflexivity.
  - change (is_process_line (snd (rank_work p r st))) with true.
    cbv iota. rewrite IH. reflexivity.
Qed.

(** X9.  A run that passes the check of [n] reports one partition line per
    rank [0 .. p-1], and each rank's line is computed from the values rank 0
    read from the command line (not from the rank's own defaults). *)
Theorem one_report_per_rank (atof : string -> Z) (atoi : string -> Z)
        (p : Z) (argv : list string) (st : params) :
  read_args atof atoi argv = Some st -> (1 <= par_n st)%Z -> (1 <= p)%Z ->
  exists tr,
    run atof atoi p argv = Finalized tr
    /\ filter is_process_line tr
       = map (fun r =>
                let pt := local_part (par_a st) (par_b st) (par_n st) p r in
                Printf r (ProcessLine r (part_n pt) (part_a pt) (part_b pt)))
             (ranks p)
    /\ List.length (filter is_process_line tr) = Z.to_nat p.
Proof.
  intros Hread Hn Hp.
  rewrite (run_finalized atof atoi p argv st Hread Hn Hp).
  eexists. split; [reflexivity|].
  assert (E : forall l tl,
             filter is_process_line tl = [] ->
             filter is_process_line
               ([MPI_Bcast_float 0 (par_a st); MPI_Bcast_float 0 (par_b st);
                 MPI_Bcast_int 0 (par_n st)]
                ++ map (fun r => snd (rank_work p r st)) l ++ tl)
             = map (fun r => snd (rank_work p r st)) l).
  { intros l tl Htl.
    rewrite !filter_app, filter_process_lines, Htl, app_nil_r. reflexivity. }
  rewrite E by reflexivity. split.
  - reflexivity.
  - rewrite length_map. unfold ranks. rewrite length_map, length_seq.
    reflexivity.
Qed.

Lemma one_report_per_rank_witness :
  exists tr,
    run atof_as_int atoi_dec 3 ["trap"; "0"; "2"; "8"]%string = Finalized tr
    /\ List.length (filter is_process_line tr) = 3%nat.
Proof.
  destruct (one_report_per_rank atof_as_int atoi_dec 3
              ["trap"; "0"; "2"; "8"]%string
              (mkParams 0 0 8))
    as (tr & E & _ & L); [reflexivity | cbn; lia | lia |].
  exists tr. split; [exact E | exact L].
Defined.

(** ** Second-order convergence *)

(** X10.  In exact arithmetic, doubling the number of trapezoids divides
    the error of the reduced total by four (for process counts that leave no
    rank idle). *)
Theorem doubling_n_quarters_error (a b : Q) (n p p' : Z) :
  (1 <= p <= n)%Z -> (1 <= p' <= 2 * n)%Z ->
  reduce_total a b (2 * n) p' - true_value a b
  == (reduce_total a b n p - true_value a b) / 4.
Proof.
  intros Hp Hp'.
  rewrite !reduce_total_Trap by lia.
  rewrite !Trap_error by lia.
  unfold step_h. rewrite inject_Z_mult.
  change (inject_Z 2) with 2.
  field. apply inject_Z_nonzero. lia.
Qed.

Lemma doubling_n_quarters_error_witness :
  reduce_total 0 1 8 3 - true_value 0 1
  == (reduce_total 0 1 4 2 - true_value 0 1) / 4.
Proof. apply (doubling_n_quarters_error 0 1 4 2 3); lia. Defined.
